(** * wolfHSM communication layer: wire header, byte-order translation
      and the client/server sessions (wolfhsm/wh_comm.h).

    The development embeds the header-only code of [wh_comm.h] in Rocq:
    fixed-width C integers are values of [Z] with the wrap-around of each
    conversion written out, bit operations are those of [Z]. *)

From Stdlib Require Import String.
From Stdlib.Strings Require Import Byte.
From Stdlib Require Import ZArith List Lia Bool.
From coqutil Require Import Z.bitblast.
Import ListNotations.
Local Open Scope Z_scope.

(** ** Fixed-width unsigned integers *)

(** Conversion of an integer value to an unsigned type of [w] bits. *)
Definition to_uint (w : Z) (x : Z) : Z := x mod 2 ^ w.

Definition to_u8  : Z -> Z := to_uint 8.
Definition to_u16 : Z -> Z := to_uint 16.
Definition to_u32 : Z -> Z := to_uint 32.
Definition to_u64 : Z -> Z := to_uint 64.

(** [x] is a value of the unsigned type of [w] bits. *)
Definition is_uint (w : Z) (x : Z) : Prop := 0 <= x < 2 ^ w.

(** ** Packet-size constants (the anonymous enum of wh_comm.h) *)

Definition WOLFHSM_COMM_HEADER_LEN : Z := 8.
Definition WOLFHSM_COMM_DATA_LEN : Z := 1280.
Definition WOLFHSM_COMM_MTU : Z :=
  WOLFHSM_COMM_HEADER_LEN + WOLFHSM_COMM_DATA_LEN.

(** ** Endian marker and version *)

Definition WH_COMM_VERSION : Z := 0x01.
Definition WH_COMM_ENDIAN : Z := 0xA5.

Definition WH_COMM_MAGIC_ENDIAN_MASK : Z := 0xFF00.
Definition WH_COMM_MAGIC_VERSION_MASK : Z := 0x00FF.

Definition WH_COMM_MAGIC_NATIVE : Z :=
  Z.lor (Z.shiftl WH_COMM_ENDIAN 8) WH_COMM_VERSION.
Definition WH_COMM_MAGIC_SWAP : Z :=
  Z.lor WH_COMM_ENDIAN (Z.shiftl WH_COMM_VERSION 8).

(** The macro [WH_COMM_FLAGS_SWAPTEST]: true when the marker bits of
    [_magic] are those of the native magic (no translation needed). *)
Definition WH_COMM_FLAGS_SWAPTEST (_magic : Z) : bool :=
  Z.land _magic WH_COMM_MAGIC_ENDIAN_MASK
  =? Z.land WH_COMM_MAGIC_NATIVE WH_COMM_MAGIC_ENDIAN_MASK.

(** ** The packet header *)

(** [whHeader], the on-the-wire header.  The field called [type] in C is
    [type_] here, [type] being reserved. *)
Module Header.
Record whHeader : Type := mk {
  magic : Z;   (* uint16_t: endian marker with version *)
  type_ : Z;   (* uint16_t: type of packet *)
  seq   : Z;   (* uint16_t: sequence number *)
  aux   : Z    (* uint16_t: session identifier or error indicator *)
}.
End Header.

(** The scalar types of the struct members. *)
Inductive ctype : Type := uint8_t | uint16_t | uint32_t | uint64_t.

Definition sizeof (t : ctype) : Z :=
  match t with
  | uint8_t => 1
  | uint16_t => 2
  | uint32_t => 4
  | uint64_t => 8
  end.

(** Layout of a struct of scalars: every member is placed at the next
    offset that is a multiple of its size, and the struct is padded to a
    multiple of its largest member. *)
Definition align_up (off a : Z) : Z := (off + a - 1) / a * a.

Fixpoint struct_end (off : Z) (ms : list (string * ctype)) : Z :=
  match ms with
  | [] => off
  | (_, t) :: r => struct_end (align_up off (sizeof t) + sizeof t) r
  end.

Definition struct_align (ms : list (string * ctype)) : Z :=
  fold_right (fun m a => Z.max (sizeof (snd m)) a) 1 ms.

Definition sizeof_struct (ms : list (string * ctype)) : Z :=
  align_up (struct_end 0 ms) (struct_align ms).

(** The members of [whHeader] in declaration order. *)
Definition whHeader_members : list (string * ctype) :=
  [ ("magic"%string, uint16_t); ("type"%string, uint16_t);
    ("seq"%string, uint16_t); ("aux"%string, uint16_t) ].

Definition sizeof_whHeader : Z := sizeof_struct whHeader_members.

(** ** Translation of values between byte orders *)

Definition wh_Translate8 (magic val : Z) : Z :=
  val.

(** The swap branch of [wh_Translate16], the second operand of its
    conditional: [val] is promoted to [int] for the shifts and the result is
    converted back to [uint16_t] by the return. *)
Definition swap16 (val : Z) : Z :=
  to_u16 (Z.lor (Z.shiftr val 8) (Z.shiftl val 8)).

Definition wh_Translate16 (magic val : Z) : Z :=
  if WH_COMM_FLAGS_SWAPTEST magic then val else swap16 val.

(** The swap branch of [wh_Translate32].  The masks are [unsigned long]; no
    intermediate value exceeds 32 bits and the result is converted to
    [uint32_t] by the return. *)
Definition swap32 (val : Z) : Z :=
  to_u32
    (Z.lor (Z.lor (Z.lor
       (Z.shiftr (Z.land val 0xFF000000) 24)
       (Z.shiftr (Z.land val 0xFF0000) 8))
       (Z.shiftr (Z.land val 0xFF00) 8))
       (Z.shiftl (Z.land val 0xFF) 24)).

Definition wh_Translate32 (magic val : Z) : Z :=
  if WH_COMM_FLAGS_SWAPTEST magic then val else swap32 val.

(** Left shift of an [unsigned long long]. *)
Definition shl64 (a n : Z) : Z := to_u64 (Z.shiftl a n).

(** The swap branch of [wh_Translate64]. *)
Definition swap64 (val : Z) : Z :=
  Z.lor (Z.lor (Z.lor (Z.lor (Z.lor (Z.lor (Z.lor
    (Z.shiftr (Z.land val 0xFF00000000000000) 56)
    (Z.shiftr (Z.land val 0xFF000000000000) 40))
    (Z.shiftr (Z.land val 0xFF0000000000) 24))
    (Z.shiftr (Z.land val 0xFF00000000) 8))
    (shl64 (Z.land val 0xFF000000) 8))
    (shl64 (Z.land val 0xFF0000) 24))
    (shl64 (Z.land val 0xFF00) 40))
    (shl64 (Z.land val 0xFF) 56).

Definition wh_Translate64 (magic val : Z) : Z :=
  if WH_COMM_FLAGS_SWAPTEST magic then val else swap64 val.

(** ** Byte reversal, as the specification words it *)

(** The [n] bytes of [v], least significant first. *)
Fixpoint to_le_bytes (n : nat) (v : Z) : list Z :=
  match n with
  | O => []
  | S n' => v mod 256 :: to_le_bytes n' (v / 256)
  end.

(** The value whose bytes, least significant first, are [l]. *)
Fixpoint of_le_bytes (l : list Z) : Z :=
  match l with
  | [] => 0
  | b :: r => b + 256 * of_le_bytes r
  end.

(** Full byte reversal of an [n]-byte value: byte [i] and byte [n-1-i] are
    exchanged. *)
Definition byteReverse (n : nat) (v : Z) : Z :=
  of_le_bytes (rev (to_le_bytes n v)).

(** Byte [i] of the [n]-byte value [v], byte 0 being the least
    significant. *)
Definition byte_at (n i : nat) (v : Z) : Z :=
  nth i (to_le_bytes n v) 0.

Definition is_byte (b : Z) : Prop := 0 <= b < 256.

(** [b] is a byte of two binary-coded decimal digits, as the version byte of
    the magic is ("Version is BCD to avoid conflict with endian marker"). *)
Definition is_bcd (b : Z) : Prop := is_byte b /\ b / 16 <= 9 /\ b mod 16 <= 9.

(** ** Bytes and buffers *)

Definition byte_of_Z (x : Z) : byte :=
  match Byte.of_N (Z.to_N (x mod 256)) with
  | Some b => b
  | None => x00
  end.

Definition Z_of_byte (b : byte) : Z := Z.of_N (Byte.to_N b).

(** The buffer [buf] with [bytes] copied in at offset [off]; the buffer
    keeps its length. *)
Definition write_at (off : nat) (bytes buf : list byte) : list byte :=
  firstn (length buf)
    (firstn off buf ++ bytes ++ skipn (off + length bytes) buf).

(** [uint16_t] field of a buffer at byte offset [off]. *)
Definition field16 (off : nat) (buf : list byte) : list byte :=
  firstn 2 (skipn off buf).

(** ** Wire header codec *)

(** Modelled from the spec: the store of one 16-bit header field, part of
    the codec whose code (wh_comm.c) is not among the sources.  Fields are
    written in the native order of the host; [host_be] tells whether the
    host is big-endian. *)
Definition store16 (host_be : bool) (x : Z) : list byte :=
  let l := map byte_of_Z (to_le_bytes 2 x) in
  if host_be then rev l else l.

(** Modelled from the spec: the load of one 16-bit header field, in the
    native order of the host (wh_comm.c is not among the sources). *)
Definition load16 (host_be : bool) (l : list byte) : Z :=
  let zs := map Z_of_byte l in
  of_le_bytes (if host_be then rev zs else zs).

(** Modelled from the spec: Encode, missing with wh_comm.c; "Encode(fields)
    -> 8-byte buffer in native order", magic, type, seq and aux at offsets
    0, 2, 4 and 6. *)
Definition Encode (host_be : bool) (h : Header.whHeader) : list byte :=
  store16 host_be (Header.magic h) ++ store16 host_be (Header.type_ h) ++
  store16 host_be (Header.seq h) ++ store16 host_be (Header.aux h).

(** Modelled from the spec: Decode, missing with wh_comm.c; "Decode(buffer)
    -> header fields; performs no translation itself". *)
Definition Decode (host_be : bool) (buf : list byte) : Header.whHeader :=
  {| Header.magic := load16 host_be (field16 0 buf);
     Header.type_ := load16 host_be (field16 2 buf);
     Header.seq   := load16 host_be (field16 4 buf);
     Header.aux   := load16 host_be (field16 6 buf) |}.

(** ** Status codes and the transport capability *)

(** Modelled from the spec: the error kinds of section 7 (the error header is
    not among the sources).  [TransportError] carries the opaque code of the
    transport. *)
Inductive whStatus : Type :=
| Success
| NotInitialized
| SizeError
| WouldBlock
| InitError
| TransportError (code : Z).

Definition is_Success (rc : whStatus) : bool :=
  match rc with
  | Success => true
  | _ => false
  end.

(** Modelled from the spec: the transport capability of section 6
    (wolfhsm/wh_transport.h is not among the sources), the same four
    callbacks for the client role and the server role.  [Ctx] is the opaque
    transport context, [Cfg] the opaque transport configuration; a callback
    returns its status with the context it leaves. *)
Module Transport.
Section Callbacks.
Context {Ctx Cfg : Type}.
Record whTransportCb : Type := mk {
    Init : Ctx -> Cfg -> whStatus * Ctx;
    Send : Ctx -> list byte -> whStatus * Ctx;
    Recv : Ctx -> Z -> whStatus * list byte * Ctx;
    Cleanup : Ctx -> whStatus * Ctx
}.
End Callbacks.
Arguments whTransportCb : clear implicits.
End Transport.

Definition whTransportClientCb := Transport.whTransportCb.
Definition whTransportServerCb := Transport.whTransportCb.

(** ** Session contexts (the structs of wh_comm.h) *)

Module ClientConfig.
Section Fields.
Context {Ctx Cfg : Type}.
Record whCommClientConfig : Type := mk {
    transport_cb : whTransportClientCb Ctx Cfg;
    transport_context : Ctx;
    transport_config : Cfg;
    client_id : Z                          (* uint32_t *)
}.
End Fields.
Arguments whCommClientConfig : clear implicits.
End ClientConfig.

(** [hdr] and [data] of the C struct point into [packet], at offsets 0 and
    [WOLFHSM_COMM_HEADER_LEN]; here they are these offsets. *)
Module Client.
Section Fields.
Context {Ctx Cfg : Type}.
Record whCommClient : Type := mk {
    transport_context : Ctx;
    transport_cb : whTransportClientCb Ctx Cfg;
    reqid : Z;                             (* uint16_t *)
    seq : Z;                               (* uint16_t *)
    size : Z;                              (* uint16_t *)
    packet : list byte;                    (* uint8_t[WOLFHSM_COMM_MTU] *)
    client_id : Z;                         (* uint32_t *)
    server_id : Z;                         (* uint32_t *)
    initialized : Z                        (* int *)
}.
End Fields.
Arguments whCommClient : clear implicits.
End Client.

Module ServerConfig.
Section Fields.
Context {Ctx Cfg : Type}.
Record whCommServerConfig : Type := mk {
    transport_context : Ctx;
    transport_cb : whTransportServerCb Ctx Cfg;
    transport_config : Cfg;
    server_id : Z                          (* uint32_t *)
}.
End Fields.
Arguments whCommServerConfig : clear implicits.
End ServerConfig.

Module Server.
Section Fields.
Context {Ctx Cfg : Type}.
Record whCommServer : Type := mk {
    transport_context : Ctx;
    transport_cb : whTransportServerCb Ctx Cfg;
    reqid : Z;                             (* uint16_t *)
    packet : list byte;                    (* uint8_t[WOLFHSM_COMM_MTU] *)
    client_id : Z;                         (* uint32_t *)
    server_id : Z;                         (* uint32_t *)
    initialized : Z                        (* int *)
}.
End Fields.
Arguments whCommServer : clear implicits.
End Server.

(** A packet buffer filled with zeros. *)
Definition empty_packet : list byte :=
  repeat x00 (Z.to_nat WOLFHSM_COMM_MTU).

(** What a receive call hands back: magic, type, seq, size and the data. *)
Record whPacketInfo : Type := mkInfo {
  out_magic : Z;
  out_type : Z;
  out_seq : Z;
  out_size : Z;
  out_data : list byte
}.

(** ** Session operations *)

Section Sessions.
Context {Ctx Cfg : Type}.

(** Byte order of the host the session runs on. *)
Variable host_be : bool.

(** *** Client *)

(** Modelled from the spec: wh_CommClient_Init is only declared in
    wh_comm.h, its body (wh_comm.c) is missing.  Init binds the transport
    and its context, resets the sequence counter and the ids, and leaves
    the session uninitialized when the transport's own init fails. *)
Definition wh_CommClient_Init
    (context : Client.whCommClient Ctx Cfg)
    (config : ClientConfig.whCommClientConfig Ctx Cfg)
  : whStatus * Client.whCommClient Ctx Cfg :=
  let cb := ClientConfig.transport_cb config in
  let '(rc, tc) := Transport.Init cb (ClientConfig.transport_context config)
                                  (ClientConfig.transport_config config) in
  let fresh (ready : Z) :=
    {| Client.transport_context := tc;
       Client.transport_cb := cb;
       Client.reqid := 0;
       Client.seq := 0;
       Client.size := 0;
       Client.packet := empty_packet;
       Client.client_id := ClientConfig.client_id config;
       Client.server_id := 0;
       Client.initialized := ready |} in
  if is_Success rc then (Success, fresh 1) else (InitError, fresh 0).

(** Modelled from the spec: wh_CommClient_SendRequest is only declared in
    wh_comm.h, its body (wh_comm.c) is missing.  The header carries the
    next sequence value and aux = client id; the payload follows; the
    packet goes to the transport.  The sequence counter advances, and the
    used sequence number is returned, on a successful send only; a failure
    leaves the session as it was (the transport keeps its own context). *)
Definition wh_CommClient_SendRequest
    (context : Client.whCommClient Ctx Cfg)
    (magic type_ data_size : Z) (data : list byte)
  : whStatus * option Z * Client.whCommClient Ctx Cfg :=
  if Client.initialized context =? 0 then (NotInitialized, None, context)
  else if WOLFHSM_COMM_DATA_LEN <? data_size then (SizeError, None, context)
  else
    let next := to_u16 (Client.seq context + 1) in
    let hdr := {| Header.magic := magic;
                  Header.type_ := type_;
                  Header.seq := next;
                  Header.aux := to_u16 (Client.client_id context) |} in
    let pkt := Encode host_be hdr ++ firstn (Z.to_nat data_size) data in
    let '(rc, tc) := Transport.Send (Client.transport_cb context)
                                    (Client.transport_context context) pkt in
    if is_Success rc then
      (Success, Some next,
       {| Client.transport_context := tc;
          Client.transport_cb := Client.transport_cb context;
          Client.reqid := Client.reqid context;
          Client.seq := next;
          Client.size := Client.size context;
          Client.packet := write_at 0 pkt (Client.packet context);
          Client.client_id := Client.client_id context;
          Client.server_id := Client.server_id context;
          Client.initialized := Client.initialized context |})
    else
      (rc, None,
       {| Client.transport_context := tc;
          Client.transport_cb := Client.transport_cb context;
          Client.reqid := Client.reqid context;
          Client.seq := Client.seq context;
          Client.size := Client.size context;
          Client.packet := Client.packet context;
          Client.client_id := Client.client_id context;
          Client.server_id := Client.server_id context;
          Client.initialized := Client.initialized context |}).

(** Modelled from the spec: the receive path shared by
    wh_CommClient_RecvResponse and wh_CommServer_RecvRequest (both only
    declared in wh_comm.h).  The header of the received packet is decoded
    and its type and seq are translated per the received magic; the
    payload is what follows the header.  [capacity] is the size of the
    caller's buffer.  The spec does not say what a packet shorter than the
    header gives: it is reported as [SizeError] here. *)
Definition decode_packet (capacity : Z) (pkt : list byte)
  : whStatus * option whPacketInfo :=
  let len := Z.of_nat (length pkt) in
  if (len <? WOLFHSM_COMM_HEADER_LEN) || (WOLFHSM_COMM_MTU <? len)
  then (SizeError, None)
  else
    let hdr := Decode host_be pkt in
    let data_size := len - WOLFHSM_COMM_HEADER_LEN in
    if capacity <? data_size then (SizeError, None)
    else
      let m := Header.magic hdr in
      (Success,
       Some {| out_magic := m;
               out_type := wh_Translate16 m (Header.type_ hdr);
               out_seq := wh_Translate16 m (Header.seq hdr);
               out_size := data_size;
               out_data := skipn (Z.to_nat WOLFHSM_COMM_HEADER_LEN) pkt |}).

(** Modelled from the spec: wh_CommClient_RecvResponse is only declared in
    wh_comm.h.  It polls the transport; a status other than success is
    handed back; the sequence counter is not touched and the returned seq
    is not compared with the last one sent. *)
Definition wh_CommClient_RecvResponse
    (context : Client.whCommClient Ctx Cfg) (capacity : Z)
  : whStatus * option whPacketInfo * Client.whCommClient Ctx Cfg :=
  if Client.initialized context =? 0 then (NotInitialized, None, context)
  else
    let '(rc, pkt, tc) := Transport.Recv (Client.transport_cb context)
                            (Client.transport_context context)
                            WOLFHSM_COMM_MTU in
    let keep (buf : list byte) :=
      {| Client.transport_context := tc;
         Client.transport_cb := Client.transport_cb context;
         Client.reqid := Client.reqid context;
         Client.seq := Client.seq context;
         Client.size := Client.size context;
         Client.packet := buf;
         Client.client_id := Client.client_id context;
         Client.server_id := Client.server_id context;
         Client.initialized := Client.initialized context |} in
    if is_Success rc then
      match decode_packet capacity pkt with
      | (Success, Some info) =>
          (Success, Some info, keep (write_at 0 pkt (Client.packet context)))
      | (err, _) => (err, None, keep (Client.packet context))
      end
    else (rc, None, keep (Client.packet context)).

(** Modelled from the spec: wh_CommClient_Cleanup is only declared in
    wh_comm.h.  It invokes the transport cleanup and is idempotent. *)
Definition wh_CommClient_Cleanup (context : Client.whCommClient Ctx Cfg)
  : whStatus * Client.whCommClient Ctx Cfg :=
  if Client.initialized context =? 0 then (Success, context)
  else
    let '(rc, tc) := Transport.Cleanup (Client.transport_cb context)
                                       (Client.transport_context context) in
    (rc,
     {| Client.transport_context := tc;
        Client.transport_cb := Client.transport_cb context;
        Client.reqid := Client.reqid context;
        Client.seq := Client.seq context;
        Client.size := Client.size context;
        Client.packet := Client.packet context;
        Client.client_id := Client.client_id context;
        Client.server_id := Client.server_id context;
        Client.initialized := 0 |}).

(** A call of the client API, with its arguments. *)
Inductive client_call : Type :=
| CallSendRequest (magic type_ data_size : Z) (data : list byte)
| CallRecvResponse (capacity : Z).

(** A run of client calls from [context]: the sequence numbers returned
    by the successful wh_CommClient_SendRequest calls, in order, and the
    context left by the run. *)
Fixpoint client_run (context : Client.whCommClient Ctx Cfg)
    (calls : list client_call)
  : list Z * Client.whCommClient Ctx Cfg :=
  match calls with
  | [] => ([], context)
  | CallSendRequest magic type_ data_size data :: rest =>
      let '(_, o, context') :=
        wh_CommClient_SendRequest context magic type_ data_size data in
      let '(outs, final) := client_run context' rest in
      (match o with Some s => s :: outs | None => outs end, final)
  | CallRecvResponse capacity :: rest =>
      let '(_, _, context') := wh_CommClient_RecvResponse context capacity in
      client_run context' rest
  end.

(** *** Server *)

(** Modelled from the spec: wh_CommServer_Init is only declared in
    wh_comm.h.  It binds the transport and its context and resets the
    ids. *)
Definition wh_CommServer_Init
    (context : Server.whCommServer Ctx Cfg)
    (config : ServerConfig.whCommServerConfig Ctx Cfg)
  : whStatus * Server.whCommServer Ctx Cfg :=
  let cb := ServerConfig.transport_cb config in
  let '(rc, tc) := Transport.Init cb (ServerConfig.transport_context config)
                                  (ServerConfig.transport_config config) in
  let fresh (ready : Z) :=
    {| Server.transport_context := tc;
       Server.transport_cb := cb;
       Server.reqid := 0;
       Server.packet := empty_packet;
       Server.client_id := 0;
       Server.server_id := ServerConfig.server_id config;
       Server.initialized := ready |} in
  if is_Success rc then (Success, fresh 1) else (InitError, fresh 0).

(** Modelled from the spec: wh_CommServer_RecvRequest is only declared in
    wh_comm.h.  It polls the transport, decodes the header, hands back
    magic, type, seq, size and the payload, and caches the decoded
    sequence ([reqid]) for wh_CommServer_SendResponse to default to. *)
Definition wh_CommServer_RecvRequest
    (context : Server.whCommServer Ctx Cfg) (capacity : Z)
  : whStatus * option whPacketInfo * Server.whCommServer Ctx Cfg :=
  if Server.initialized context =? 0 then (NotInitialized, None, context)
  else
    let '(rc, pkt, tc) := Transport.Recv (Server.transport_cb context)
                            (Server.transport_context context)
                            WOLFHSM_COMM_MTU in
    let keep (id : Z) (buf : list byte) :=
      {| Server.transport_context := tc;
         Server.transport_cb := Server.transport_cb context;
         Server.reqid := id;
         Server.packet := buf;
         Server.client_id := Server.client_id context;
         Server.server_id := Server.server_id context;
         Server.initialized := Server.initialized context |} in
    if is_Success rc then
      match decode_packet capacity pkt with
      | (Success, Some info) =>
          (Success, Some info,
           keep (out_seq info) (write_at 0 pkt (Server.packet context)))
      | (err, _) =>
          (err, None, keep (Server.reqid context) (Server.packet context))
      end
    else (rc, None, keep (Server.reqid context) (Server.packet context)).

(** Modelled from the spec: wh_CommServer_SendResponse is only declared in
    wh_comm.h.  The response is built with the supplied magic, type and
    seq, written at their offsets of the session buffer (the aux slot
    keeps what the buffer holds: the spec names no source for it), the
    payload follows, and the packet goes to the transport.  Size and error
    behaviour are those of wh_CommClient_SendRequest. *)
Definition wh_CommServer_SendResponse
    (context : Server.whCommServer Ctx Cfg)
    (magic type_ seq data_size : Z) (data : list byte)
  : whStatus * Server.whCommServer Ctx Cfg :=
  if Server.initialized context =? 0 then (NotInitialized, context)
  else if WOLFHSM_COMM_DATA_LEN <? data_size then (SizeError, context)
  else
    let hdr := {| Header.magic := magic;
                  Header.type_ := type_;
                  Header.seq := seq;
                  Header.aux :=
                    Header.aux (Decode host_be (Server.packet context)) |} in
    let pkt := Encode host_be hdr ++ firstn (Z.to_nat data_size) data in
    let '(rc, tc) := Transport.Send (Server.transport_cb context)
                                    (Server.transport_context context) pkt in
    let keep (buf : list byte) :=
      {| Server.transport_context := tc;
         Server.transport_cb := Server.transport_cb context;
         Server.reqid := Server.reqid context;
         Server.packet := buf;
         Server.client_id := Server.client_id context;
         Server.server_id := Server.server_id context;
         Server.initialized := Server.initialized context |} in
    if is_Success rc
    then (Success, keep (write_at 0 pkt (Server.packet context)))
    else (rc, keep (Server.packet context)).

(** Modelled from the spec: wh_CommServer_Cleanup is only declared in
    wh_comm.h; symmetric to the client's. *)
Definition wh_CommServer_Cleanup (context : Server.whCommServer Ctx Cfg)
  : whStatus * Server.whCommServer Ctx Cfg :=
  if Server.initialized context =? 0 then (Success, context)
  else
    let '(rc, tc) := Transport.Cleanup (Server.transport_cb context)
                                       (Server.transport_context context) in
    (rc,
     {| Server.transport_context := tc;
        Server.transport_cb := Server.transport_cb context;
        Server.reqid := Server.reqid context;
        Server.packet := Server.packet context;
        Server.client_id := Server.client_id context;
        Server.server_id := Server.server_id context;
        Server.initialized := 0 |}).

End Sessions.


(** ** A loopback transport and the scenario of the specification *)

(** The wire of the loopback transport: the number of sends attempted so
    far and the packets sent and not yet received.  Every third send is
    refused, a receive on an empty wire would block. *)
Definition wire : Type := (nat * list (list byte))%type.

Definition loop_Init (w : wire) (_ : unit) : whStatus * wire := (Success, w).

Definition loop_Send (w : wire) (pkt : list byte) : whStatus * wire :=
  let '(n, q) := w in
  if (n mod 3 =? 2)%nat then (TransportError 7, (S n, q))
  else (Success, (S n, q ++ [pkt])).

Definition loop_Recv (w : wire) (capacity : Z)
  : whStatus * list byte * wire :=
  let '(n, q) := w in
  match q with
  | [] => (WouldBlock, [], w)
  | pkt :: rest => (Success, pkt, (n, rest))
  end.

Definition loop_Cleanup (w : wire) : whStatus * wire := (Success, w).

Definition loop_cb : Transport.whTransportCb wire unit :=
  {| Transport.Init := loop_Init;
     Transport.Send := loop_Send;
     Transport.Recv := loop_Recv;
     Transport.Cleanup := loop_Cleanup |}.

(** A client context before Init, and the configuration of the scenario
    (client id 7). *)
Definition scenario_client_blank : Client.whCommClient wire unit :=
  {| Client.transport_context := (0%nat, []);
     Client.transport_cb := loop_cb;
     Client.reqid := 0;
     Client.seq := 0;
     Client.size := 0;
     Client.packet := [];
     Client.client_id := 0;
     Client.server_id := 0;
     Client.initialized := 0 |}.

Definition scenario_client_config : ClientConfig.whCommClientConfig wire unit :=
  {| ClientConfig.transport_cb := loop_cb;
     ClientConfig.transport_context := (0%nat, []);
     ClientConfig.transport_config := tt;
     ClientConfig.client_id := 7 |}.

(** The client of the scenario after Init, on a little-endian host. *)
Definition scenario_client : Client.whCommClient wire unit :=
  snd (wh_CommClient_Init scenario_client_blank scenario_client_config).

(** Calls made on it: two requests, a third one that the transport refuses,
    a poll for a response, an oversized request, and two more requests. *)
Definition scenario_calls : list client_call :=
  [ CallSendRequest WH_COMM_MAGIC_NATIVE 1 2 [x01; x02];
    CallSendRequest WH_COMM_MAGIC_NATIVE 1 0 [];
    CallSendRequest WH_COMM_MAGIC_NATIVE 1 1 [x03];
    CallRecvResponse 1280;
    CallSendRequest WH_COMM_MAGIC_NATIVE 1 1281 [];
    CallSendRequest WH_COMM_MAGIC_NATIVE 1 1 [x04];
    CallSendRequest WH_COMM_MAGIC_NATIVE 1 1 [x05] ].

(** The server of the scenario after Init, its transport holding the
    packet [pkt]. *)
Definition scenario_server (pkt : list byte) : Server.whCommServer wire unit :=
  snd (wh_CommServer_Init
         {| Server.transport_context := (0%nat, []);
            Server.transport_cb := loop_cb;
            Server.reqid := 0;
            Server.packet := [];
            Server.client_id := 0;
            Server.server_id := 0;
            Server.initialized := 0 |}
         {| ServerConfig.transport_context := (0%nat, [pkt]);
            ServerConfig.transport_cb := loop_cb;
            ServerConfig.transport_config := tt;
            ServerConfig.server_id := 1 |}).

(** The request of the scenario as a little-endian client puts it on the
    wire: magic, type 1, seq 1, aux 7, and the payload 01 02. *)
Definition scenario_request : list byte :=
  [x01; xa5; x01; x00; x01; x00; x07; x00; x01; x02].

(** The same request as a big-endian client puts it on the wire. *)
Definition scenario_request_be : list byte :=
  [xa5; x01; x00; x01; x00; x01; x00; x07; x01; x02].

(** The server of the scenario after it received the request, and after it
    answered with type 2, the cached sequence and the payload AA. *)
Definition scenario_server_received : Server.whCommServer wire unit :=
  snd (wh_CommServer_RecvRequest false (scenario_server scenario_request) 1280).

Definition scenario_server_responded : Server.whCommServer wire unit :=
  snd (wh_CommServer_SendResponse false scenario_server_received
         WH_COMM_MAGIC_NATIVE 2 (Server.reqid scenario_server_received)
         1 [xaa]).

(** * Properties *)

(** ** Bytes of a value *)

Lemma to_le_bytes_length n v : length (to_le_bytes n v) = n.
Proof. revert v; induction n as [|n IH]; intros v; simpl; auto. Qed.

Lemma to_le_bytes_bytes n v : Forall is_byte (to_le_bytes n v).
Proof.
  revert v; induction n as [|n IH]; intros v; simpl; constructor; auto.
  unfold is_byte. apply Z.mod_pos_bound. lia.
Qed.

Lemma of_le_bytes_to_le_bytes n v :
  0 <= v < 256 ^ Z.of_nat n -> of_le_bytes (to_le_bytes n v) = v.
Proof.
  revert v; induction n as [|n IH]; intros v Hv.
  - simpl in *. lia.
  - cbn [to_le_bytes of_le_bytes]. rewrite IH.
    + pose proof (Z.div_mod v 256). lia.
    + rewrite Nat2Z.inj_succ, Z.pow_succ_r in Hv by lia.
      split; [apply Z.div_pos; lia | apply Z.div_lt_upper_bound; lia].
Qed.

Lemma of_le_bytes_range l :
  Forall is_byte l -> 0 <= of_le_bytes l < 256 ^ Z.of_nat (length l).
Proof.
  induction 1 as [|b r Hb Hr IH]; [simpl; lia|].
  cbn [of_le_bytes length]. rewrite Nat2Z.inj_succ, Z.pow_succ_r by lia.
  unfold is_byte in Hb. lia.
Qed.

Lemma to_le_bytes_of_le_bytes l :
  Forall is_byte l -> to_le_bytes (length l) (of_le_bytes l) = l.
Proof.
  induction 1 as [|b r Hb Hr IH]; [reflexivity|].
  unfold is_byte in Hb. cbn [length to_le_bytes of_le_bytes].
  replace ((b + 256 * of_le_bytes r) mod 256) with b.
  - replace ((b + 256 * of_le_bytes r) / 256) with (of_le_bytes r).
    + now rewrite IH.
    + apply Z.div_unique with (r := b); lia.
  - apply Z.mod_unique with (q := of_le_bytes r); lia.
Qed.

Lemma byteReverse_range n v : 0 <= byteReverse n v < 256 ^ Z.of_nat n.
Proof.
  unfold byteReverse.
  rewrite <- (to_le_bytes_length n v) at 3. rewrite <- length_rev.
  apply of_le_bytes_range, Forall_rev, to_le_bytes_bytes.
Qed.

(** Reversing the bytes twice gives the value back. *)
Lemma byteReverse_involutive n v :
  0 <= v < 256 ^ Z.of_nat n -> byteReverse n (byteReverse n v) = v.
Proof.
  intros Hv. unfold byteReverse at 1.
  replace (to_le_bytes n (byteReverse n v)) with (rev (to_le_bytes n v)).
  - rewrite rev_involutive. now apply of_le_bytes_to_le_bytes.
  - unfold byteReverse.
    rewrite <- (to_le_bytes_length n v) at 2. rewrite <- length_rev.
    symmetry. apply to_le_bytes_of_le_bytes, Forall_rev, to_le_bytes_bytes.
Qed.

(** Byte [i] of the reversal is byte [n-1-i] of the value. *)
Lemma byteReverse_byte n v i :
  (i < n)%nat ->
  byte_at n i (byteReverse n v) = byte_at n (n - 1 - i) v.
Proof.
  intros Hi. unfold byte_at, byteReverse.
  rewrite <- (to_le_bytes_length n v) at 1. rewrite <- length_rev.
  rewrite to_le_bytes_of_le_bytes by (apply Forall_rev, to_le_bytes_bytes).
  rewrite rev_nth by (rewrite to_le_bytes_length; lia).
  rewrite to_le_bytes_length. f_equal. lia.
Qed.


(** ** Masks, shifts and disjoint unions *)

(** Masking with a byte mask placed at bit [k] selects byte [k/8]. *)
Lemma land_byte_mask v k :
  0 <= k -> Z.land v (Z.shiftl 255 k) = ((v / 2 ^ k) mod 256) * 2 ^ k.
Proof.
  intros Hk. rewrite <- Z.shiftl_mul_pow2, <- Z.shiftr_div_pow2 by lia.
  change 256 with (2 ^ 8). rewrite <- Z.land_ones by lia.
  change 255 with (Z.ones 8). Z.bitblast.
Qed.

(** A masked byte moved down by [s] bits. *)
Lemma shr_mask v m k s j :
  m = Z.shiftl 255 k -> 0 <= s -> 0 <= j -> k = s + j ->
  Z.shiftr (Z.land v m) s = ((v / 2 ^ k) mod 256) * 2 ^ j.
Proof.
  intros -> Hs Hj ->. rewrite land_byte_mask by lia.
  rewrite <- (Z.shiftl_mul_pow2 _ (s + j)), <- (Z.shiftl_mul_pow2 _ j) by lia.
  rewrite Z.shiftr_shiftl_l by lia. f_equal. lia.
Qed.

(** A masked byte moved up by [s] bits, staying below bit 64. *)
Lemma shl64_mask v m k s j :
  m = Z.shiftl 255 k -> 0 <= s -> 0 <= k -> j = k + s -> j + 8 <= 64 ->
  shl64 (Z.land v m) s = ((v / 2 ^ k) mod 256) * 2 ^ j.
Proof.
  intros -> Hs Hk -> Hj. rewrite land_byte_mask by lia.
  unfold shl64, to_u64, to_uint.
  rewrite Z.shiftl_mul_pow2, <- Z.mul_assoc, <- Z.pow_add_r by lia.
  apply Z.mod_small.
  pose proof (Z.mod_pos_bound (v / 2 ^ k) 256 ltac:(lia)) as Hb.
  assert (Hp : 0 < 2 ^ (k + s)) by (apply Z.pow_pos_nonneg; lia).
  split; [nia|].
  replace (2 ^ 64) with (2 ^ (64 - (k + s)) * 2 ^ (k + s))
    by (rewrite <- Z.pow_add_r by lia; f_equal; lia).
  assert (2 ^ 8 <= 2 ^ (64 - (k + s))) by (apply Z.pow_le_mono_r; lia).
  change (2 ^ 8) with 256 in *.
  apply Z.mul_lt_mono_pos_r; lia.
Qed.

(** Values occupying disjoint bit ranges are joined by addition. *)
Lemma lor_shifted a b k :
  0 <= k -> 0 <= a < 2 ^ k -> Z.lor a (b * 2 ^ k) = a + b * 2 ^ k.
Proof.
  intros Hk Ha. apply Z.or_to_plus.
  rewrite <- Z.shiftl_mul_pow2 by lia.
  rewrite <- (Z.mod_small a (2 ^ k)) by lia.
  rewrite <- Z.land_ones by lia. Z.bitblast.
  subst. rewrite (Z.testbit_neg_r b) by lia. now rewrite andb_false_r.
Qed.

Ltac join_bytes :=
  repeat match goal with
         | |- context [Z.lor ?a (?b * 2 ^ ?k)] =>
             lazymatch a with
             | context [Z.lor] => fail
             | _ => rewrite (lor_shifted a b k) by lia
             end
         end.

(** ** The swap branches compute the byte reversal (16 and 64 bits) *)

Lemma swap16_byteReverse v : is_uint 16 v -> swap16 v = byteReverse 2 v.
Proof.
  unfold swap16, is_uint, to_u16, to_uint. intros Hv.
  rewrite Z.shiftr_div_pow2, Z.shiftl_mul_pow2 by lia.
  change (2 ^ 16) with 65536 in *.
  assert (Hq : 0 <= v / 2 ^ 8 < 2 ^ 8)
    by (change (2 ^ 8) with 256; Z.div_mod_to_equations; lia).
  rewrite lor_shifted by lia.
  cbn [byteReverse to_le_bytes rev app of_le_bytes].
  change (2 ^ 8) with 256 in *.
  Z.div_mod_to_equations. lia.
Qed.

Lemma swap64_byteReverse v : is_uint 64 v -> swap64 v = byteReverse 8 v.
Proof.
  unfold swap64.
  unfold is_uint. intros Hv.
  rewrite (shr_mask v _ 56 56 0), (shr_mask v _ 48 40 8),
          (shr_mask v _ 40 24 16), (shr_mask v _ 32 8 24),
          (shl64_mask v _ 24 8 32), (shl64_mask v _ 16 24 40),
          (shl64_mask v _ 8 40 48), (shl64_mask v _ 0 56 56)
    by (reflexivity || lia).
  cbn [byteReverse to_le_bytes rev app of_le_bytes].
  rewrite !Z.div_div by lia.
  change (2 ^ 0) with 1. rewrite Z.div_1_r, Z.mul_1_r.
  change (256 * (256 * (256 * (256 * (256 * (256 * 256)))))) with (2 ^ 56).
  change (256 * (256 * (256 * (256 * (256 * 256))))) with (2 ^ 48).
  change (256 * (256 * (256 * (256 * 256)))) with (2 ^ 40).
  change (256 * (256 * (256 * 256))) with (2 ^ 32).
  change (256 * (256 * 256)) with (2 ^ 24).
  change (256 * 256) with (2 ^ 16).
  change (v / 256) with (v / 2 ^ 8).
  repeat match goal with
         | |- context [?x mod 256] =>
             let Hb := fresh "Hb" in
             pose proof (Z.mod_pos_bound x 256 eq_refl) as Hb;
             generalize dependent (x mod 256); intros
         end.
  join_bytes. lia.
Qed.

(** The swap test looks at the high byte only. *)
Lemma SWAPTEST_high_byte m :
  is_uint 16 m ->
  WH_COMM_FLAGS_SWAPTEST m = (Z.shiftr m 8 =? WH_COMM_ENDIAN).
Proof.
  unfold is_uint, WH_COMM_FLAGS_SWAPTEST. intros Hm.
  change WH_COMM_MAGIC_ENDIAN_MASK with (Z.shiftl 255 8).
  rewrite land_byte_mask by lia. rewrite Z.shiftr_div_pow2 by lia.
  change (Z.land WH_COMM_MAGIC_NATIVE (Z.shiftl 255 8)) with 42240.
  change WH_COMM_ENDIAN with 165.
  change (2 ^ 8) with 256. change (2 ^ 16) with 65536 in Hm.
  destruct (Z.eqb_spec (m / 256) 165) as [E|E].
  - rewrite E. reflexivity.
  - apply Z.eqb_neq. Z.div_mod_to_equations. lia.
Qed.

Lemma SWAPTEST_NATIVE : WH_COMM_FLAGS_SWAPTEST WH_COMM_MAGIC_NATIVE = true.
Proof. reflexivity. Qed.

Lemma SWAPTEST_SWAP : WH_COMM_FLAGS_SWAPTEST WH_COMM_MAGIC_SWAP = false.
Proof. reflexivity. Qed.

Lemma is_uint_256_pow w n : w = 8 * Z.of_nat n -> 2 ^ w = 256 ^ Z.of_nat n.
Proof.
  intros ->. change 256 with (2 ^ 8). rewrite <- Z.pow_mul_r by lia.
  reflexivity.
Qed.

Lemma swap16_involutive v : is_uint 16 v -> swap16 (swap16 v) = v.
Proof.
  intros Hv. rewrite (swap16_byteReverse v Hv).
  assert (Hr : is_uint 16 (byteReverse 2 v)).
  { unfold is_uint. rewrite (is_uint_256_pow 16 2) by reflexivity.
    apply byteReverse_range. }
  rewrite (swap16_byteReverse _ Hr). apply byteReverse_involutive.
  unfold is_uint in Hv. now rewrite <- (is_uint_256_pow 16 2) by reflexivity.
Qed.

Lemma swap64_involutive v : is_uint 64 v -> swap64 (swap64 v) = v.
Proof.
  intros Hv. rewrite (swap64_byteReverse v Hv).
  assert (Hr : is_uint 64 (byteReverse 8 v)).
  { unfold is_uint. rewrite (is_uint_256_pow 64 8) by reflexivity.
    apply byteReverse_range. }
  rewrite (swap64_byteReverse _ Hr). apply byteReverse_involutive.
  unfold is_uint in Hv. now rewrite <- (is_uint_256_pow 64 8) by reflexivity.
Qed.

(** ** Translation between byte orders *)

(** What the swap branch of [wh_Translate32] computes: bytes 3 and 1 of the
    value are both moved to byte 0, byte 2 to byte 1, byte 0 to byte 3, and
    byte 2 of the result is left empty. *)
Lemma swap32_bytes v :
  is_uint 32 v ->
  swap32 v
  = Z.lor (byte_at 4 3 v) (byte_at 4 1 v)
    + byte_at 4 2 v * 2 ^ 8 + byte_at 4 0 v * 2 ^ 24.
Proof.
  unfold swap32, is_uint, to_u32, to_uint, byte_at. intros Hv.
  cbn [to_le_bytes nth].
  rewrite (shr_mask v _ 24 24 0), (shr_mask v _ 16 8 8),
          (shr_mask v _ 8 8 0) by (reflexivity || lia).
  change 0xFF with (Z.shiftl 255 0). rewrite land_byte_mask by lia.
  rewrite Z.shiftl_mul_pow2, <- Z.mul_assoc, <- Z.pow_add_r by lia.
  rewrite !Z.div_div by lia.
  change (2 ^ 0) with 1. rewrite Z.div_1_r, !Z.mul_1_r.
  change (256 * (256 * 256)) with (2 ^ 24).
  change (256 * 256) with (2 ^ 16).
  change (v / 256) with (v / 2 ^ 8).
  rewrite (Z.lor_comm (Z.lor _ _) ((v / 2 ^ 8) mod 256)), Z.lor_assoc.
  rewrite (Z.lor_comm ((v / 2 ^ 8) mod 256)).
  assert (Hl : 0 <= Z.lor ((v / 2 ^ 24) mod 256) ((v / 2 ^ 8) mod 256) < 2 ^ 8).
  { pose proof (Z.mod_pos_bound (v / 2 ^ 24) 256 eq_refl) as H3.
    pose proof (Z.mod_pos_bound (v / 2 ^ 8) 256 eq_refl) as H1.
    split; [apply Z.lor_nonneg; lia|].
    destruct (Z.eq_dec (Z.lor ((v / 2 ^ 24) mod 256) ((v / 2 ^ 8) mod 256)) 0)
      as [E|E]; [rewrite E; lia|].
    apply Z.log2_lt_pow2; [pose proof (Z.lor_nonneg
      ((v / 2 ^ 24) mod 256) ((v / 2 ^ 8) mod 256)); lia|].
    rewrite Z.log2_lor by lia.
    apply Z.max_lub_lt.
    - destruct (Z.eq_dec ((v / 2 ^ 24) mod 256) 0) as [E3|E3];
        [rewrite E3; simpl; lia | apply Z.log2_lt_pow2; lia].
    - destruct (Z.eq_dec ((v / 2 ^ 8) mod 256) 0) as [E1|E1];
        [rewrite E1; simpl; lia | apply Z.log2_lt_pow2; lia]. }
  pose proof (Z.mod_pos_bound (v / 2 ^ 16) 256 eq_refl) as H2.
  generalize dependent (Z.lor ((v / 2 ^ 24) mod 256) ((v / 2 ^ 8) mod 256)).
  generalize dependent ((v / 2 ^ 16) mod 256).
  intros b2 H2 l Hl.
  rewrite (Z.add_comm 0 24).
  rewrite (lor_shifted l b2 8) by lia.
  rewrite lor_shifted by lia.
  apply Z.mod_small. pose proof (Z.mod_pos_bound v 256 eq_refl). lia.
Qed.

(** C1, evaluated on the code: with the swapped magic, [wh_Translate32]
    maps 0x00000100 to 0x00000001, whereas the full byte reversal of
    0x00000100 (byte 1 and byte 2 exchanged) is 0x00010000.  The third term
    of the swap branch shifts byte 1 right by 8 where the reversal needs a
    left shift. *)
Theorem wh_Translate32_swap_differs_from_byteReverse :
  wh_Translate32 WH_COMM_MAGIC_SWAP 0x00000100 = 0x00000001 /\
  byteReverse 4 0x00000100 = 0x00010000 /\
  wh_Translate32 WH_COMM_MAGIC_SWAP 0x00000100 <> byteReverse 4 0x00000100.
Proof. repeat split. vm_compute. discriminate. Qed.

(** C2: with the swapped magic, [wh_Translate16] returns the byte reversal
    of every 16-bit value and [wh_Translate64] the full byte reversal of
    every 64-bit value. *)
Theorem wh_Translate16_64_swap_byteReverse (v16 v64 : Z) :
  is_uint 16 v16 -> is_uint 64 v64 ->
  wh_Translate16 WH_COMM_MAGIC_SWAP v16 = byteReverse 2 v16 /\
  wh_Translate64 WH_COMM_MAGIC_SWAP v64 = byteReverse 8 v64.
Proof.
  intros H16 H64. unfold wh_Translate16, wh_Translate64.
  rewrite SWAPTEST_SWAP. split.
  - now apply swap16_byteReverse.
  - now apply swap64_byteReverse.
Qed.

Lemma wh_Translate16_64_swap_byteReverse_witness :
  wh_Translate16 WH_COMM_MAGIC_SWAP 0x1234 = byteReverse 2 0x1234 /\
  wh_Translate64 WH_COMM_MAGIC_SWAP 0x0102030405060708
  = byteReverse 8 0x0102030405060708.
Proof.
  apply (wh_Translate16_64_swap_byteReverse 0x1234 0x0102030405060708);
    unfold is_uint; lia.
Defined.

(** C3: with the native magic, the translations of width 16, 32 and 64
    return the value unchanged, and [wh_Translate8] returns the value
    unchanged whatever the magic. *)
Theorem wh_Translate_native_identity (magic v : Z) :
  wh_Translate16 WH_COMM_MAGIC_NATIVE v = v /\
  wh_Translate32 WH_COMM_MAGIC_NATIVE v = v /\
  wh_Translate64 WH_COMM_MAGIC_NATIVE v = v /\
  wh_Translate8 magic v = v.
Proof.
  unfold wh_Translate16, wh_Translate32, wh_Translate64, wh_Translate8.
  rewrite SWAPTEST_NATIVE. auto.
Qed.

(** Branch selection: a 16-bit magic whose high byte is not the endian
    marker 0xA5, be it the swapped magic or a corrupted one, fails the swap
    test, and the three translations return what they return for the swapped
    magic.  For the widths 16 and 64 that is the byte reversal; for the
    width 32 it is not (see the theorem that follows). *)
Theorem wh_Translate_foreign_magic_swaps (m v16 v32 v64 : Z) :
  is_uint 16 m -> Z.shiftr m 8 <> WH_COMM_ENDIAN ->
  is_uint 16 v16 -> is_uint 32 v32 -> is_uint 64 v64 ->
  WH_COMM_FLAGS_SWAPTEST m = false /\
  (wh_Translate16 m v16 = swap16 v16 /\
   wh_Translate32 m v32 = swap32 v32 /\
   wh_Translate64 m v64 = swap64 v64) /\
  (wh_Translate16 m v16 = wh_Translate16 WH_COMM_MAGIC_SWAP v16 /\
   wh_Translate32 m v32 = wh_Translate32 WH_COMM_MAGIC_SWAP v32 /\
   wh_Translate64 m v64 = wh_Translate64 WH_COMM_MAGIC_SWAP v64) /\
  wh_Translate16 m v16 = byteReverse 2 v16 /\
  wh_Translate64 m v64 = byteReverse 8 v64.
Proof.
  intros Hm Hhi H16 H32 H64.
  assert (Ht : WH_COMM_FLAGS_SWAPTEST m = false).
  { rewrite SWAPTEST_high_byte by assumption. now apply Z.eqb_neq. }
  unfold wh_Translate16, wh_Translate32, wh_Translate64.
  rewrite Ht, SWAPTEST_SWAP.
  repeat split; auto using swap16_byteReverse, swap64_byteReverse.
Qed.

Lemma wh_Translate_foreign_magic_swaps_witness :
  WH_COMM_FLAGS_SWAPTEST 0x0000 = false /\
  (wh_Translate16 0x0000 0x1234 = swap16 0x1234 /\
   wh_Translate32 0x0000 0x12345678 = swap32 0x12345678 /\
   wh_Translate64 0x0000 0x0102030405060708 = swap64 0x0102030405060708) /\
  (wh_Translate16 0x0000 0x1234 = wh_Translate16 WH_COMM_MAGIC_SWAP 0x1234 /\
   wh_Translate32 0x0000 0x12345678
   = wh_Translate32 WH_COMM_MAGIC_SWAP 0x12345678 /\
   wh_Translate64 0x0000 0x0102030405060708
   = wh_Translate64 WH_COMM_MAGIC_SWAP 0x0102030405060708) /\
  wh_Translate16 0x0000 0x1234 = byteReverse 2 0x1234 /\
  wh_Translate64 0x0000 0x0102030405060708
  = byteReverse 8 0x0102030405060708.
Proof.
  apply (wh_Translate_foreign_magic_swaps
           0x0000 0x1234 0x12345678 0x0102030405060708);
    unfold is_uint; try lia.
  vm_compute. discriminate.
Defined.

(** C4, evaluated on the code: the corrupted magic 0x0000 is neither the
    native nor the swapped magic and fails the swap test, so the swap branch
    is taken; at the width 32 that branch does not reverse the bytes:
    [wh_Translate32] maps 0x00000100 to 0x00000001 where the byte reversal is
    0x00010000, while [wh_Translate16] and [wh_Translate64] with the same
    magic do reverse theirs. *)
Theorem wh_Translate32_corrupted_magic_not_byteReverse :
  0x0000 <> WH_COMM_MAGIC_NATIVE /\ 0x0000 <> WH_COMM_MAGIC_SWAP /\
  WH_COMM_FLAGS_SWAPTEST 0x0000 = false /\
  wh_Translate32 0x0000 0x00000100 = 0x00000001 /\
  byteReverse 4 0x00000100 = 0x00010000 /\
  wh_Translate32 0x0000 0x00000100 <> byteReverse 4 0x00000100 /\
  wh_Translate16 0x0000 0x0100 = byteReverse 2 0x0100 /\
  wh_Translate64 0x0000 0x00000100 = byteReverse 8 0x00000100.
Proof.
  repeat split; try (vm_compute; discriminate).
Qed.

(** C5: two magics with the same high byte, [(m1 & 0xFF00) == (m2 & 0xFF00)],
    translate every value alike, at each of the widths 8, 16, 32 and 64. *)
Theorem wh_Translate_depends_on_high_byte (m1 m2 v : Z) :
  Z.land m1 0xFF00 = Z.land m2 0xFF00 ->
  wh_Translate8 m1 v = wh_Translate8 m2 v /\
  wh_Translate16 m1 v = wh_Translate16 m2 v /\
  wh_Translate32 m1 v = wh_Translate32 m2 v /\
  wh_Translate64 m1 v = wh_Translate64 m2 v.
Proof.
  intros Hm.
  unfold wh_Translate8, wh_Translate16, wh_Translate32, wh_Translate64,
    WH_COMM_FLAGS_SWAPTEST, WH_COMM_MAGIC_ENDIAN_MASK.
  rewrite Hm. auto.
Qed.

Lemma wh_Translate_depends_on_high_byte_witness :
  wh_Translate8 0x01A5 0x1234 = wh_Translate8 0x01FF 0x1234 /\
  wh_Translate16 0x01A5 0x1234 = wh_Translate16 0x01FF 0x1234 /\
  wh_Translate32 0x01A5 0x1234 = wh_Translate32 0x01FF 0x1234 /\
  wh_Translate64 0x01A5 0x1234 = wh_Translate64 0x01FF 0x1234.
Proof.
  apply (wh_Translate_depends_on_high_byte 0x01A5 0x01FF 0x1234).
  reflexivity.
Defined.

(** C6: the native magic and the swapped magic differ, the native magic
    passes the swap test and the swapped magic fails it, their bits under
    [WH_COMM_MAGIC_ENDIAN_MASK] being 0xA500 and 0x0100. *)
Theorem magic_constants_do_not_alias :
  WH_COMM_MAGIC_NATIVE <> WH_COMM_MAGIC_SWAP /\
  WH_COMM_FLAGS_SWAPTEST WH_COMM_MAGIC_NATIVE = true /\
  WH_COMM_FLAGS_SWAPTEST WH_COMM_MAGIC_SWAP = false /\
  Z.land WH_COMM_MAGIC_NATIVE WH_COMM_MAGIC_ENDIAN_MASK = 0xA500 /\
  Z.land WH_COMM_MAGIC_SWAP WH_COMM_MAGIC_ENDIAN_MASK = 0x0100.
Proof. repeat split. vm_compute. discriminate. Qed.

(** C7: the header length is 8, the data length 1280, the MTU their sum
    1288, and [whHeader] has exactly the four 16-bit members magic, type,
    seq and aux, 8 bytes in all. *)
Theorem packet_size_constants :
  WOLFHSM_COMM_HEADER_LEN = 8 /\
  WOLFHSM_COMM_DATA_LEN = 1280 /\
  WOLFHSM_COMM_MTU = WOLFHSM_COMM_HEADER_LEN + WOLFHSM_COMM_DATA_LEN /\
  WOLFHSM_COMM_MTU = 1288 /\
  map fst whHeader_members
  = ["magic"%string; "type"%string; "seq"%string; "aux"%string] /\
  Forall (fun m => snd m = uint16_t) whHeader_members /\
  sizeof_whHeader = WOLFHSM_COMM_HEADER_LEN.
Proof.
  repeat split. unfold whHeader_members. repeat constructor.
Qed.

(** C10: for every magic, [wh_Translate16] applied twice gives back every
    16-bit value and [wh_Translate64] applied twice every 64-bit value. *)
Theorem wh_Translate16_64_involutive (m v16 v64 : Z) :
  is_uint 16 v16 -> is_uint 64 v64 ->
  wh_Translate16 m (wh_Translate16 m v16) = v16 /\
  wh_Translate64 m (wh_Translate64 m v64) = v64.
Proof.
  intros H16 H64. unfold wh_Translate16, wh_Translate64.
  destruct (WH_COMM_FLAGS_SWAPTEST m); [auto|].
  split; [now apply swap16_involutive | now apply swap64_involutive].
Qed.

Lemma wh_Translate16_64_involutive_witness :
  wh_Translate16 WH_COMM_MAGIC_SWAP (wh_Translate16 WH_COMM_MAGIC_SWAP 0x1234)
  = 0x1234 /\
  wh_Translate64 WH_COMM_MAGIC_SWAP
    (wh_Translate64 WH_COMM_MAGIC_SWAP 0x0102030405060708)
  = 0x0102030405060708.
Proof.
  apply (wh_Translate16_64_involutive
           WH_COMM_MAGIC_SWAP 0x1234 0x0102030405060708);
    unfold is_uint; lia.
Defined.

(** ** Client session: sequence numbers *)

Section ClientSequence.
Context {Ctx Cfg : Type}.
Variable host_be : bool.

(** One wh_CommClient_SendRequest call: on success the counter has advanced
    by one, modulo 2^16, and the new value is the returned sequence number;
    on any failure nothing is returned and the counter is as before. *)
Lemma SendRequest_seq (c : Client.whCommClient Ctx Cfg)
    (magic type_ data_size : Z) (data : list byte) :
  let '(rc, o, c') :=
    wh_CommClient_SendRequest host_be c magic type_ data_size data in
  if is_Success rc
  then o = Some (Client.seq c') /\ Client.seq c' = (Client.seq c + 1) mod 2 ^ 16
  else o = None /\ Client.seq c' = Client.seq c.
Proof.
  unfold wh_CommClient_SendRequest.
  destruct (Client.initialized c =? 0); [simpl; auto|].
  destruct (WOLFHSM_COMM_DATA_LEN <? data_size); [simpl; auto|].
  destruct (Transport.Send _ _ _) as [rc tc].
  destruct (is_Success rc) eqn:E; simpl; [auto|].
  rewrite E. auto.
Qed.

(** wh_CommClient_RecvResponse leaves the counter alone. *)
Lemma RecvResponse_seq (c : Client.whCommClient Ctx Cfg) (capacity : Z) :
  Client.seq (snd (wh_CommClient_RecvResponse host_be c capacity))
  = Client.seq c.
Proof.
  unfold wh_CommClient_RecvResponse.
  destruct (Client.initialized c =? 0); [reflexivity|].
  destruct (Transport.Recv _ _ _) as [[rc pkt] tc].
  destruct (is_Success rc); [|reflexivity].
  destruct (decode_packet host_be capacity pkt) as [[] [info|]]; reflexivity.
Qed.

Lemma client_run_seq (calls : list client_call) :
  forall (c : Client.whCommClient Ctx Cfg) (s0 : Z),
    Client.seq c = s0 -> is_uint 16 s0 ->
    (forall k, (1 <= k <= length (fst (client_run host_be c calls)))%nat ->
       nth (k - 1) (fst (client_run host_be c calls)) 0
       = (s0 + Z.of_nat k) mod 2 ^ 16) /\
    Client.seq (snd (client_run host_be c calls))
    = (s0 + Z.of_nat (length (fst (client_run host_be c calls)))) mod 2 ^ 16.
Proof.
  induction calls as [|call rest IH]; intros c s0 Hs Hr.
  - simpl. split; [intros k Hk; lia|].
    rewrite Z.add_0_r, Z.mod_small; [assumption | exact Hr].
  - destruct call as [magic type_ data_size data | capacity]; cbn [client_run].
    + pose proof (SendRequest_seq c magic type_ data_size data) as Hstep.
      destruct (wh_CommClient_SendRequest host_be c magic type_ data_size data)
        as [[rc o] c'].
      destruct (is_Success rc).
      * destruct Hstep as [-> Hc'].
        assert (Hr' : is_uint 16 (Client.seq c'))
          by (rewrite Hc'; apply Z.mod_pos_bound; lia).
        specialize (IH c' (Client.seq c') eq_refl Hr').
        destruct (client_run host_be c' rest) as [outs final].
        cbn [fst snd length] in *. destruct IH as [IHk IHf]. split.
        -- intros k Hk. destruct k as [|[|k]]; [lia| |].
           ++ simpl. rewrite Hc', Hs. reflexivity.
           ++ replace (S (S k) - 1)%nat with (S k) by lia. cbn [nth].
              specialize (IHk (S k) ltac:(lia)).
              replace (S k - 1)%nat with k in IHk by lia.
              rewrite IHk, Hc', Hs, Zplus_mod_idemp_l. f_equal. lia.
        -- rewrite IHf, Hc', Hs, Zplus_mod_idemp_l. f_equal. lia.
      * destruct Hstep as [-> Hc'].
        assert (Hr' : is_uint 16 (Client.seq c')) by (rewrite Hc', Hs; exact Hr).
        specialize (IH c' s0 ltac:(congruence) Hr).
        destruct (client_run host_be c' rest) as [outs final].
        exact IH.
    + pose proof (RecvResponse_seq c capacity) as Hstep.
      destruct (wh_CommClient_RecvResponse host_be c capacity) as [[rc o] c'].
      cbn [snd] in Hstep. apply IH; [congruence | exact Hr].
Qed.

End ClientSequence.

(** ** Header codec *)

Lemma Z_of_byte_range b : is_byte (Z_of_byte b).
Proof.
  unfold is_byte, Z_of_byte. pose proof (Byte.to_N_bounded b). lia.
Qed.

Lemma Z_of_byte_of_Z x : Z_of_byte (byte_of_Z x) = x mod 256.
Proof.
  unfold Z_of_byte, byte_of_Z.
  pose proof (Z.mod_pos_bound x 256 eq_refl) as Hx.
  destruct (Byte.of_N (Z.to_N (x mod 256))) as [b|] eqn:E.
  - apply Byte.to_of_N in E. rewrite E. apply Z2N.id. lia.
  - apply Byte.of_N_None_iff in E. lia.
Qed.

Lemma store16_two host_be x :
  store16 host_be x
  = if host_be then [byte_of_Z (x / 256); byte_of_Z x]
    else [byte_of_Z x; byte_of_Z (x / 256)].
Proof.
  assert (Hb : forall y, byte_of_Z (y mod 256) = byte_of_Z y).
  { intros y. unfold byte_of_Z. now rewrite Z.mod_mod by lia. }
  unfold store16. cbn [to_le_bytes map]. rewrite !Hb.
  destruct host_be; reflexivity.
Qed.

Lemma load16_store16 host_be x : load16 host_be (store16 host_be x) = to_u16 x.
Proof.
  rewrite store16_two. unfold load16, to_u16, to_uint.
  destruct host_be; cbn [map rev app of_le_bytes];
    rewrite !Z_of_byte_of_Z; change (2 ^ 16) with 65536;
    Z.div_mod_to_equations; lia.
Qed.

Lemma load16_range host_be l :
  (length l <= 2)%nat -> is_uint 16 (load16 host_be l).
Proof.
  intros Hl. unfold load16, is_uint.
  assert (Hb : Forall is_byte (map Z_of_byte l)).
  { apply Forall_forall. intros z Hz. apply in_map_iff in Hz.
    destruct Hz as [b [<- _]]. apply Z_of_byte_range. }
  assert (Hle : forall zs, Forall is_byte zs -> length zs = length l ->
                           0 <= of_le_bytes zs < 2 ^ 16).
  { intros zs Hzs Hlen. pose proof (of_le_bytes_range zs Hzs) as Hr.
    assert (256 ^ Z.of_nat (length zs) <= 256 ^ 2)
      by (apply Z.pow_le_mono_r; lia).
    change (256 ^ 2) with (2 ^ 16) in *. lia. }
  destruct host_be; apply Hle.
  - now apply Forall_rev.
  - now rewrite length_rev, length_map.
  - assumption.
  - now rewrite length_map.
Qed.

Lemma field16_length off buf : (length (field16 off buf) <= 2)%nat.
Proof. unfold field16. rewrite length_firstn. lia. Qed.

(** Decoding a buffer that starts with an encoded header gives back the
    header fields, each as a [uint16_t]. *)
Lemma Decode_Encode host_be h rest :
  Decode host_be (Encode host_be h ++ rest)
  = {| Header.magic := to_u16 (Header.magic h);
       Header.type_ := to_u16 (Header.type_ h);
       Header.seq := to_u16 (Header.seq h);
       Header.aux := to_u16 (Header.aux h) |}.
Proof.
  unfold Decode. rewrite <- !(load16_store16 host_be). unfold Encode.
  rewrite !(store16_two host_be). destruct host_be; reflexivity.
Qed.

Lemma Encode_length host_be h :
  Z.of_nat (length (Encode host_be h)) = WOLFHSM_COMM_HEADER_LEN.
Proof.
  unfold Encode. rewrite !(store16_two host_be). destruct host_be; reflexivity.
Qed.

Lemma wh_Translate16_range m v : is_uint 16 v -> is_uint 16 (wh_Translate16 m v).
Proof.
  intros Hv. unfold wh_Translate16.
  destruct (WH_COMM_FLAGS_SWAPTEST m); [assumption|].
  unfold swap16, to_u16, to_uint, is_uint. apply Z.mod_pos_bound. lia.
Qed.

(** ** The scenario of the specification, run on the loopback transport *)

Example scenario_first_request :
  let '(rc, o, c) :=
    wh_CommClient_SendRequest false scenario_client
      WH_COMM_MAGIC_NATIVE 1 2 [x01; x02] in
  rc = Success /\ o = Some 1 /\
  snd (Client.transport_context c) = [scenario_request].
Proof. vm_compute. auto. Qed.

Example scenario_run :
  fst (client_run false scenario_client scenario_calls) = [1; 2; 3; 4].
Proof. vm_compute. reflexivity. Qed.

Example scenario_server_request :
  let '(rc, o, c) :=
    wh_CommServer_RecvRequest false (scenario_server scenario_request) 1280 in
  rc = Success /\
  o = Some (mkInfo WH_COMM_MAGIC_NATIVE 1 1 2 [x01; x02]) /\
  Server.reqid c = 1.
Proof. vm_compute. auto. Qed.

(** A session fresh from a successful Init is ready and its sequence
    counter is 0. *)
Lemma wh_CommClient_Init_fresh {Ctx Cfg : Type}
    (c : Client.whCommClient Ctx Cfg)
    (config : ClientConfig.whCommClientConfig Ctx Cfg) :
  fst (wh_CommClient_Init c config) = Success ->
  Client.seq (snd (wh_CommClient_Init c config)) = 0 /\
  Client.initialized (snd (wh_CommClient_Init c config)) = 1.
Proof.
  unfold wh_CommClient_Init.
  destruct (Transport.Init _ _ _) as [rc tc].
  destruct (is_Success rc); simpl; [auto | discriminate].
Qed.

(** C8: on a client session whose sequence counter is [s0], whatever calls
    are made and however the transport answers, the [k]-th successful
    wh_CommClient_SendRequest returns [(s0 + k) mod 2^16], and the counter
    ends at [s0] plus the number of successful sends; a call that succeeds
    advances the counter by one and returns it, a call that fails returns
    nothing and leaves the counter where it was. *)
Theorem client_sequence_numbers {Ctx Cfg : Type} (host_be : bool)
    (c : Client.whCommClient Ctx Cfg) (calls : list client_call) (s0 : Z) :
  Client.seq c = s0 -> is_uint 16 s0 ->
  (forall k, (1 <= k <= length (fst (client_run host_be c calls)))%nat ->
     nth (k - 1) (fst (client_run host_be c calls)) 0
     = (s0 + Z.of_nat k) mod 2 ^ 16) /\
  Client.seq (snd (client_run host_be c calls))
  = (s0 + Z.of_nat (length (fst (client_run host_be c calls)))) mod 2 ^ 16 /\
  (forall (c1 : Client.whCommClient Ctx Cfg) magic type_ data_size data,
     let '(rc, o, c2) :=
       wh_CommClient_SendRequest host_be c1 magic type_ data_size data in
     if is_Success rc
     then o = Some (Client.seq c2) /\
          Client.seq c2 = (Client.seq c1 + 1) mod 2 ^ 16
     else o = None /\ Client.seq c2 = Client.seq c1).
Proof.
  intros Hs Hr.
  destruct (client_run_seq host_be calls c s0 Hs Hr) as [Hk Hf].
  repeat split; [exact Hk | exact Hf |].
  intros c1 magic type_ data_size data. apply SendRequest_seq.
Qed.

Lemma client_sequence_numbers_witness :
  (forall k,
     (1 <= k <= length (fst (client_run false scenario_client scenario_calls)))%nat ->
     nth (k - 1) (fst (client_run false scenario_client scenario_calls)) 0
     = (0 + Z.of_nat k) mod 2 ^ 16) /\
  Client.seq (snd (client_run false scenario_client scenario_calls))
  = (0 + Z.of_nat
           (length (fst (client_run false scenario_client scenario_calls))))
    mod 2 ^ 16 /\
  (forall (c1 : Client.whCommClient wire unit) magic type_ data_size data,
     let '(rc, o, c2) :=
       wh_CommClient_SendRequest false c1 magic type_ data_size data in
     if is_Success rc
     then o = Some (Client.seq c2) /\
          Client.seq c2 = (Client.seq c1 + 1) mod 2 ^ 16
     else o = None /\ Client.seq c2 = Client.seq c1).
Proof.
  apply (client_sequence_numbers false scenario_client scenario_calls 0).
  - reflexivity.
  - unfold is_uint. lia.
Defined.

(** ** Server session: the response echoes the request's sequence *)

Section ServerEcho.
Context {Ctx Cfg : Type}.
Variable host_be : bool.

Lemma decode_packet_Success capacity pkt info :
  decode_packet host_be capacity pkt = (Success, Some info) ->
  out_seq info
  = wh_Translate16 (Header.magic (Decode host_be pkt))
                   (Header.seq (Decode host_be pkt)) /\
  is_uint 16 (out_seq info).
Proof.
  unfold decode_packet.
  destruct (_ || _); [discriminate|].
  destruct (capacity <? _); [discriminate|].
  intros H. injection H as <-. cbn [out_seq]. split; [reflexivity|].
  apply wh_Translate16_range. cbn [Decode Header.seq].
  apply load16_range, field16_length.
Qed.

(** A successful wh_CommServer_RecvRequest caches the sequence number it
    hands back and leaves the session ready, on the same transport. *)
Lemma RecvRequest_caches (c c' : Server.whCommServer Ctx Cfg) capacity info :
  wh_CommServer_RecvRequest host_be c capacity = (Success, Some info, c') ->
  Server.reqid c' = out_seq info /\
  is_uint 16 (out_seq info) /\
  Server.initialized c' = Server.initialized c /\
  Server.transport_cb c' = Server.transport_cb c.
Proof.
  unfold wh_CommServer_RecvRequest.
  destruct (Server.initialized c =? 0); [discriminate|].
  destruct (Transport.Recv _ _ _) as [[rc pkt] tc].
  destruct (is_Success rc); [|discriminate].
  destruct (decode_packet host_be capacity pkt) as [st o] eqn:E.
  destruct st; try discriminate.
  destruct o as [i|]; [|discriminate].
  intros H. injection H as <- <-. cbn.
  apply decode_packet_Success in E. tauto.
Qed.

(** The packet that a successful wh_CommServer_SendResponse hands to the
    transport carries the supplied sequence number. *)
Lemma SendResponse_packet (c c' : Server.whCommServer Ctx Cfg)
    (magic type_ seq data_size : Z) (data : list byte) :
  wh_CommServer_SendResponse host_be c magic type_ seq data_size data
  = (Success, c') ->
  exists pkt,
    Transport.Send (Server.transport_cb c) (Server.transport_context c) pkt
    = (Success, Server.transport_context c') /\
    Header.magic (Decode host_be pkt) = to_u16 magic /\
    Header.type_ (Decode host_be pkt) = to_u16 type_ /\
    Header.seq (Decode host_be pkt) = to_u16 seq /\
    Z.of_nat (length pkt) <= WOLFHSM_COMM_MTU.
Proof.
  unfold wh_CommServer_SendResponse.
  destruct (Server.initialized c =? 0); [discriminate|].
  destruct (Z.ltb_spec WOLFHSM_COMM_DATA_LEN data_size) as [Hsz|Hsz];
    [discriminate|].
  match goal with
  | |- context [Transport.Send _ _ ?p] => set (pkt := p)
  end.
  destruct (Transport.Send _ _ pkt) as [rc tc] eqn:E.
  destruct rc; cbn [is_Success]; try discriminate.
  intros H. injection H as <-. cbn [Server.transport_context].
  exists pkt. split; [exact E|]. subst pkt.
  rewrite Decode_Encode. cbn. repeat split.
  rewrite length_app, Nat2Z.inj_add, Encode_length, length_firstn.
  unfold WOLFHSM_COMM_MTU, WOLFHSM_COMM_DATA_LEN, WOLFHSM_COMM_HEADER_LEN in *.
  lia.
Qed.

End ServerEcho.

(** C9: when wh_CommServer_RecvRequest hands back a request with sequence
    number [S] and wh_CommServer_SendResponse is then called with the cached
    sequence and succeeds, the packet it gave to the transport has [S] in
    the seq field of its header. *)
Theorem server_response_echoes_sequence {Ctx Cfg : Type} (host_be : bool)
    (c c' c'' : Server.whCommServer Ctx Cfg) (capacity S : Z)
    (info : whPacketInfo) (magic type_ data_size : Z) (data : list byte) :
  wh_CommServer_RecvRequest host_be c capacity = (Success, Some info, c') ->
  out_seq info = S ->
  wh_CommServer_SendResponse host_be c' magic type_ (Server.reqid c')
    data_size data = (Success, c'') ->
  Server.reqid c' = S /\
  exists pkt,
    Transport.Send (Server.transport_cb c') (Server.transport_context c') pkt
    = (Success, Server.transport_context c'') /\
    Header.seq (Decode host_be pkt) = S.
Proof.
  intros Hrecv HS Hsend.
  destruct (RecvRequest_caches host_be c c' capacity info Hrecv)
    as (Hid & Hr & _ & _).
  split; [congruence|].
  destruct (SendResponse_packet host_be c' c'' _ _ _ _ _ Hsend)
    as (pkt & Hp & _ & _ & Hq & _).
  exists pkt. split; [exact Hp|].
  rewrite Hq, Hid, <- HS. apply Z.mod_small. exact Hr.
Qed.

Lemma server_response_echoes_sequence_witness :
  Server.reqid scenario_server_received = 1 /\
  exists pkt,
    Transport.Send (Server.transport_cb scenario_server_received)
      (Server.transport_context scenario_server_received) pkt
    = (Success, Server.transport_context scenario_server_responded) /\
    Header.seq (Decode false pkt) = 1.
Proof.
  apply (server_response_echoes_sequence false
           (scenario_server scenario_request) scenario_server_received
           scenario_server_responded 1280 1
           (mkInfo WH_COMM_MAGIC_NATIVE 1 1 2 [x01; x02])
           WH_COMM_MAGIC_NATIVE 2 1 [xaa]);
    vm_compute; reflexivity.
Defined.

(** The response of the scenario on the wire: magic, type 2, seq 1, the aux
    slot as the buffer held it, and the payload AA. *)
Example scenario_response :
  snd (Server.transport_context scenario_server_responded)
  = [[x01; xa5; x02; x00; x01; x00; x07; x00; xaa]].
Proof. vm_compute. reflexivity. Qed.

(** A request from a big-endian client, received on a little-endian host:
    the magic fails the swap test and type and seq are translated. *)
Example scenario_server_request_be :
  let '(rc, o, c) :=
    wh_CommServer_RecvRequest false (scenario_server scenario_request_be) 1280 in
  rc = Success /\
  o = Some (mkInfo WH_COMM_MAGIC_SWAP 1 1 2 [x01; x02]) /\
  Server.reqid c = 1.
Proof. vm_compute. auto. Qed.

(** ** Further properties of the translations *)

Lemma byte_at_is_byte n i v : is_byte (byte_at n i v).
Proof.
  unfold byte_at.
  destruct (nth_in_or_default i (to_le_bytes n v) 0) as [Hin|E].
  - pose proof (to_le_bytes_bytes n v) as Hb.
    rewrite Forall_forall in Hb. now apply Hb.
  - rewrite E. unfold is_byte. lia.
Qed.

Lemma lor_is_byte a b : is_byte a -> is_byte b -> is_byte (Z.lor a b).
Proof.
  unfold is_byte. intros Ha Hb.
  rewrite <- (Z.mod_small a (2 ^ 8)), <- (Z.mod_small b (2 ^ 8))
    by (change (2 ^ 8) with 256; lia).
  rewrite <- !Z.land_ones, <- Z.land_lor_distr_l, Z.land_ones by lia.
  change (2 ^ 8) with 256. apply Z.mod_pos_bound. lia.
Qed.

Lemma lor_is_uint w a b :
  0 <= w -> is_uint w a -> is_uint w b -> is_uint w (Z.lor a b).
Proof.
  unfold is_uint. intros Hw Ha Hb.
  rewrite <- (Z.mod_small a (2 ^ w)), <- (Z.mod_small b (2 ^ w)) by lia.
  rewrite <- !Z.land_ones, <- Z.land_lor_distr_l, Z.land_ones by lia.
  apply Z.mod_pos_bound. apply Z.pow_pos_nonneg; lia.
Qed.

(** A byte placed at bit [j] fits every width that has room for it. *)
Lemma byte_shifted_is_uint w x j :
  0 <= j -> j + 8 <= w -> is_uint w ((x mod 256) * 2 ^ j).
Proof.
  intros Hj Hw. unfold is_uint.
  pose proof (Z.mod_pos_bound x 256 eq_refl) as Hb.
  assert (Hp : 0 < 2 ^ j) by (apply Z.pow_pos_nonneg; lia).
  split; [nia|].
  replace (2 ^ w) with (2 ^ (w - j) * 2 ^ j)
    by (rewrite <- Z.pow_add_r by lia; f_equal; lia).
  assert (2 ^ 8 <= 2 ^ (w - j)) by (apply Z.pow_le_mono_r; lia).
  change (2 ^ 8) with 256 in *.
  apply Z.mul_lt_mono_pos_r; lia.
Qed.

(** A masked byte moved up by [s] bits, in unbounded arithmetic. *)
Lemma shl_mask v m k s :
  m = Z.shiftl 255 k -> 0 <= k -> 0 <= s ->
  Z.shiftl (Z.land v m) s = ((v / 2 ^ k) mod 256) * 2 ^ (k + s).
Proof.
  intros -> Hk Hs. rewrite land_byte_mask by lia.
  rewrite Z.shiftl_mul_pow2, <- Z.mul_assoc, <- Z.pow_add_r by lia.
  reflexivity.
Qed.

(** A value is the sum of its bytes. *)
Lemma uint32_bytes v :
  is_uint 32 v ->
  v = byte_at 4 0 v + byte_at 4 1 v * 2 ^ 8
      + byte_at 4 2 v * 2 ^ 16 + byte_at 4 3 v * 2 ^ 24.
Proof.
  intros Hv. pose proof (of_le_bytes_to_le_bytes 4 v) as H.
  rewrite <- (is_uint_256_pow 32 4) in H by reflexivity.
  specialize (H Hv). unfold byte_at. cbn [to_le_bytes of_le_bytes nth] in *.
  lia.
Qed.

(** The bytes of what the swap branch of [wh_Translate32] returns. *)
Lemma swap32_le_bytes v :
  is_uint 32 v ->
  to_le_bytes 4 (swap32 v)
  = [Z.lor (byte_at 4 3 v) (byte_at 4 1 v); byte_at 4 2 v; 0; byte_at 4 0 v].
Proof.
  intros Hv. rewrite (swap32_bytes v Hv).
  set (l := [Z.lor (byte_at 4 3 v) (byte_at 4 1 v); byte_at 4 2 v; 0;
             byte_at 4 0 v]).
  replace (_ + _ + _) with (of_le_bytes l) by (subst l; cbn [of_le_bytes]; lia).
  apply (to_le_bytes_of_le_bytes l). subst l.
  repeat apply Forall_cons; try apply Forall_nil;
    auto using byte_at_is_byte, lor_is_byte.
  unfold is_byte. lia.
Qed.

Lemma swap32_range v : is_uint 32 (swap32 v).
Proof. unfold swap32, to_u32, to_uint, is_uint. apply Z.mod_pos_bound. lia. Qed.

Lemma byteReverse4_bytes v :
  byteReverse 4 v
  = byte_at 4 3 v + byte_at 4 2 v * 2 ^ 8
    + byte_at 4 1 v * 2 ^ 16 + byte_at 4 0 v * 2 ^ 24.
Proof.
  unfold byteReverse, byte_at. cbn [to_le_bytes rev app of_le_bytes nth]. lia.
Qed.

(** What the swap branch of [wh_Translate32] gives when applied twice. *)
Lemma swap32_twice v :
  is_uint 32 v ->
  swap32 (swap32 v)
  = Z.lor (byte_at 4 0 v) (byte_at 4 2 v)
    + Z.lor (byte_at 4 3 v) (byte_at 4 1 v) * 2 ^ 24.
Proof.
  intros Hv. rewrite (swap32_bytes (swap32 v) (swap32_range v)).
  unfold byte_at at 1 2 3 4. rewrite (swap32_le_bytes v Hv). cbn [nth].
  lia.
Qed.

Lemma wh_Translate16_twice m v :
  is_uint 16 v -> wh_Translate16 m (wh_Translate16 m v) = v.
Proof.
  intros Hv. unfold wh_Translate16.
  destruct (WH_COMM_FLAGS_SWAPTEST m); [reflexivity|].
  now apply swap16_involutive.
Qed.

Lemma wh_Translate64_twice m v :
  is_uint 64 v -> wh_Translate64 m (wh_Translate64 m v) = v.
Proof.
  intros Hv. unfold wh_Translate64.
  destruct (WH_COMM_FLAGS_SWAPTEST m); [reflexivity|].
  now apply swap64_involutive.
Qed.

(** X1: with a magic that fails the swap test, byte 0 of what
    [wh_Translate32] returns is the bitwise or of bytes 3 and 1 of the value,
    byte 1 is byte 2 of the value, byte 2 is zero and byte 3 is byte 0 of the
    value. *)
Theorem wh_Translate32_foreign_bytes (m v : Z) :
  WH_COMM_FLAGS_SWAPTEST m = false -> is_uint 32 v ->
  byte_at 4 0 (wh_Translate32 m v) = Z.lor (byte_at 4 3 v) (byte_at 4 1 v) /\
  byte_at 4 1 (wh_Translate32 m v) = byte_at 4 2 v /\
  byte_at 4 2 (wh_Translate32 m v) = 0 /\
  byte_at 4 3 (wh_Translate32 m v) = byte_at 4 0 v.
Proof.
  intros Hm Hv. unfold wh_Translate32. rewrite Hm.
  pose proof (swap32_le_bytes v Hv) as E.
  repeat split;
    match goal with
    | |- byte_at 4 ?i (swap32 v) = _ =>
        change (byte_at 4 i (swap32 v))
          with (nth i (to_le_bytes 4 (swap32 v)) 0);
        rewrite E; reflexivity
    end.
Qed.

Lemma wh_Translate32_foreign_bytes_witness :
  byte_at 4 0 (wh_Translate32 WH_COMM_MAGIC_SWAP 0x12345678)
  = Z.lor (byte_at 4 3 0x12345678) (byte_at 4 1 0x12345678) /\
  byte_at 4 1 (wh_Translate32 WH_COMM_MAGIC_SWAP 0x12345678)
  = byte_at 4 2 0x12345678 /\
  byte_at 4 2 (wh_Translate32 WH_COMM_MAGIC_SWAP 0x12345678) = 0 /\
  byte_at 4 3 (wh_Translate32 WH_COMM_MAGIC_SWAP 0x12345678)
  = byte_at 4 0 0x12345678.
Proof.
  apply (wh_Translate32_foreign_bytes WH_COMM_MAGIC_SWAP 0x12345678).
  - reflexivity.
  - unfold is_uint. lia.
Defined.

(** X2: with a magic that fails the swap test, [wh_Translate32] returns the
    byte reversal of a 32-bit value exactly when byte 1 of the value is
    zero. *)
Theorem wh_Translate32_foreign_byteReverse_iff (m v : Z) :
  WH_COMM_FLAGS_SWAPTEST m = false -> is_uint 32 v ->
  (wh_Translate32 m v = byteReverse 4 v <-> byte_at 4 1 v = 0).
Proof.
  intros Hm Hv. unfold wh_Translate32. rewrite Hm.
  rewrite (swap32_bytes v Hv), byteReverse4_bytes.
  pose proof (byte_at_is_byte 4 1 v) as H1.
  pose proof (byte_at_is_byte 4 3 v) as H3.
  pose proof (lor_is_byte _ _ H3 H1) as Hl.
  unfold is_byte in *. split.
  - intros E. lia.
  - intros E. rewrite E, Z.lor_0_r. lia.
Qed.

Lemma wh_Translate32_foreign_byteReverse_iff_witness :
  wh_Translate32 WH_COMM_MAGIC_SWAP 0x12340078 = byteReverse 4 0x12340078
  <-> byte_at 4 1 0x12340078 = 0.
Proof.
  apply (wh_Translate32_foreign_byteReverse_iff WH_COMM_MAGIC_SWAP 0x12340078).
  - reflexivity.
  - unfold is_uint. lia.
Defined.

(** X3: with a magic that fails the swap test, [wh_Translate32] applied
    twice gives back a 32-bit value exactly when bytes 1 and 2 of the value
    are zero. *)
Theorem wh_Translate32_foreign_twice_iff (m v : Z) :
  WH_COMM_FLAGS_SWAPTEST m = false -> is_uint 32 v ->
  (wh_Translate32 m (wh_Translate32 m v) = v
   <-> byte_at 4 1 v = 0 /\ byte_at 4 2 v = 0).
Proof.
  intros Hm Hv. unfold wh_Translate32. rewrite Hm.
  rewrite (swap32_twice v Hv).
  pose proof (uint32_bytes v Hv) as Ev.
  pose proof (byte_at_is_byte 4 0 v) as H0.
  pose proof (byte_at_is_byte 4 1 v) as H1.
  pose proof (byte_at_is_byte 4 2 v) as H2.
  pose proof (byte_at_is_byte 4 3 v) as H3.
  pose proof (lor_is_byte _ _ H3 H1) as Hl.
  pose proof (lor_is_byte _ _ H0 H2) as Hr.
  unfold is_byte in *. split.
  - intros E. rewrite Ev in E at 5. lia.
  - intros [E1 E2]. rewrite Ev at 5. rewrite E1, E2, !Z.lor_0_r. lia.
Qed.

Lemma wh_Translate32_foreign_twice_iff_witness :
  wh_Translate32 WH_COMM_MAGIC_SWAP (wh_Translate32 WH_COMM_MAGIC_SWAP 0x12000078)
  = 0x12000078
  <-> byte_at 4 1 0x12000078 = 0 /\ byte_at 4 2 0x12000078 = 0.
Proof.
  apply (wh_Translate32_foreign_twice_iff WH_COMM_MAGIC_SWAP 0x12000078).
  - reflexivity.
  - unfold is_uint. lia.
Defined.

(** X4: for every magic, [wh_Translate16] and [wh_Translate64] are
    injective: two values of the width with the same translation are
    equal. *)
Theorem wh_Translate16_64_injective (m a16 b16 a64 b64 : Z) :
  is_uint 16 a16 -> is_uint 16 b16 -> is_uint 64 a64 -> is_uint 64 b64 ->
  (wh_Translate16 m a16 = wh_Translate16 m b16 -> a16 = b16) /\
  (wh_Translate64 m a64 = wh_Translate64 m b64 -> a64 = b64).
Proof.
  intros Ha16 Hb16 Ha64 Hb64. split; intros E.
  - rewrite <- (wh_Translate16_twice m a16 Ha16),
            <- (wh_Translate16_twice m b16 Hb16).
    now rewrite E.
  - rewrite <- (wh_Translate64_twice m a64 Ha64),
            <- (wh_Translate64_twice m b64 Hb64).
    now rewrite E.
Qed.

Lemma wh_Translate16_64_injective_witness :
  (wh_Translate16 WH_COMM_MAGIC_SWAP 0x1234
   = wh_Translate16 WH_COMM_MAGIC_SWAP 0x1234 -> 0x1234 = 0x1234) /\
  (wh_Translate64 WH_COMM_MAGIC_SWAP 0x0102030405060708
   = wh_Translate64 WH_COMM_MAGIC_SWAP 0x0102030405060708 ->
   0x0102030405060708 = 0x0102030405060708).
Proof.
  apply (wh_Translate16_64_injective WH_COMM_MAGIC_SWAP
           0x1234 0x1234 0x0102030405060708 0x0102030405060708);
    unfold is_uint; lia.
Defined.

(** X5: with a magic that fails the swap test, byte [i] of what
    [wh_Translate16] returns is byte [1 - i] of the value, and byte [i] of
    what [wh_Translate64] returns is byte [7 - i] of the value. *)
Theorem wh_Translate16_64_foreign_bytes (m v16 v64 : Z) :
  WH_COMM_FLAGS_SWAPTEST m = false -> is_uint 16 v16 -> is_uint 64 v64 ->
  (forall i, (i < 2)%nat ->
     byte_at 2 i (wh_Translate16 m v16) = byte_at 2 (1 - i) v16) /\
  (forall i, (i < 8)%nat ->
     byte_at 8 i (wh_Translate64 m v64) = byte_at 8 (7 - i) v64).
Proof.
  intros Hm H16 H64. unfold wh_Translate16, wh_Translate64. rewrite Hm.
  rewrite (swap16_byteReverse v16 H16), (swap64_byteReverse v64 H64).
  split; intros i Hi.
  - now rewrite (byteReverse_byte 2 v16 i Hi).
  - now rewrite (byteReverse_byte 8 v64 i Hi).
Qed.

Lemma wh_Translate16_64_foreign_bytes_witness :
  (forall i, (i < 2)%nat ->
     byte_at 2 i (wh_Translate16 0x0000 0x1234) = byte_at 2 (1 - i) 0x1234) /\
  (forall i, (i < 8)%nat ->
     byte_at 8 i (wh_Translate64 0x0000 0x0102030405060708)
     = byte_at 8 (7 - i) 0x0102030405060708).
Proof.
  apply (wh_Translate16_64_foreign_bytes 0x0000 0x1234 0x0102030405060708).
  - reflexivity.
  - unfold is_uint. lia.
  - unfold is_uint. lia.
Defined.

(** X6: in the swap branches of [wh_Translate32] and [wh_Translate64] no
    bit is lost: the value that [wh_Translate32] converts to [uint32_t]
    already fits 32 bits, whatever the width of [unsigned long], and each of
    the four left shifts of [wh_Translate64] stays below bit 64. *)
Theorem swap32_swap64_shifts_keep_all_bits (v : Z) :
  swap32 v
  = Z.lor (Z.lor (Z.lor
      (Z.shiftr (Z.land v 0xFF000000) 24)
      (Z.shiftr (Z.land v 0xFF0000) 8))
      (Z.shiftr (Z.land v 0xFF00) 8))
      (Z.shiftl (Z.land v 0xFF) 24) /\
  shl64 (Z.land v 0xFF000000) 8 = Z.shiftl (Z.land v 0xFF000000) 8 /\
  shl64 (Z.land v 0xFF0000) 24 = Z.shiftl (Z.land v 0xFF0000) 24 /\
  shl64 (Z.land v 0xFF00) 40 = Z.shiftl (Z.land v 0xFF00) 40 /\
  shl64 (Z.land v 0xFF) 56 = Z.shiftl (Z.land v 0xFF) 56.
Proof.
  split.
  - unfold swap32, to_u32, to_uint. apply Z.mod_small.
    repeat apply lor_is_uint; try lia.
    + rewrite (shr_mask v _ 24 24 0) by (reflexivity || lia).
      apply byte_shifted_is_uint; lia.
    + rewrite (shr_mask v _ 16 8 8) by (reflexivity || lia).
      apply byte_shifted_is_uint; lia.
    + rewrite (shr_mask v _ 8 8 0) by (reflexivity || lia).
      apply byte_shifted_is_uint; lia.
    + rewrite (shl_mask v _ 0 24) by (reflexivity || lia).
      apply byte_shifted_is_uint; lia.
  - repeat split.
    + rewrite (shl64_mask v _ 24 8 32), (shl_mask v _ 24 8)
        by (reflexivity || lia). reflexivity.
    + rewrite (shl64_mask v _ 16 24 40), (shl_mask v _ 16 24)
        by (reflexivity || lia). reflexivity.
    + rewrite (shl64_mask v _ 8 40 48), (shl_mask v _ 8 40)
        by (reflexivity || lia). reflexivity.
    + rewrite (shl64_mask v _ 0 56 56), (shl_mask v _ 0 56)
        by (reflexivity || lia). reflexivity.
Qed.

(** X7: translating with one magic and then with another gives the value
    back when both magics pass the swap test or both fail it, and the byte
    reversal of the value otherwise, for the widths 16 and 64. *)
Theorem wh_Translate16_64_compose (m1 m2 v16 v64 : Z) :
  is_uint 16 v16 -> is_uint 64 v64 ->
  wh_Translate16 m1 (wh_Translate16 m2 v16)
  = (if Bool.eqb (WH_COMM_FLAGS_SWAPTEST m1) (WH_COMM_FLAGS_SWAPTEST m2)
     then v16 else byteReverse 2 v16) /\
  wh_Translate64 m1 (wh_Translate64 m2 v64)
  = (if Bool.eqb (WH_COMM_FLAGS_SWAPTEST m1) (WH_COMM_FLAGS_SWAPTEST m2)
     then v64 else byteReverse 8 v64).
Proof.
  intros H16 H64. unfold wh_Translate16, wh_Translate64.
  destruct (WH_COMM_FLAGS_SWAPTEST m1), (WH_COMM_FLAGS_SWAPTEST m2);
    cbn [Bool.eqb]; split;
    auto using swap16_byteReverse, swap64_byteReverse,
               swap16_involutive, swap64_involutive.
Qed.

Lemma wh_Translate16_64_compose_witness :
  wh_Translate16 WH_COMM_MAGIC_NATIVE (wh_Translate16 WH_COMM_MAGIC_SWAP 0x1234)
  = (if Bool.eqb (WH_COMM_FLAGS_SWAPTEST WH_COMM_MAGIC_NATIVE)
                 (WH_COMM_FLAGS_SWAPTEST WH_COMM_MAGIC_SWAP)
     then 0x1234 else byteReverse 2 0x1234) /\
  wh_Translate64 WH_COMM_MAGIC_NATIVE
    (wh_Translate64 WH_COMM_MAGIC_SWAP 0x0102030405060708)
  = (if Bool.eqb (WH_COMM_FLAGS_SWAPTEST WH_COMM_MAGIC_NATIVE)
                 (WH_COMM_FLAGS_SWAPTEST WH_COMM_MAGIC_SWAP)
     then 0x0102030405060708 else byteReverse 8 0x0102030405060708).
Proof.
  apply (wh_Translate16_64_compose WH_COMM_MAGIC_NATIVE WH_COMM_MAGIC_SWAP
           0x1234 0x0102030405060708);
    unfold is_uint; lia.
Defined.

Lemma lor_marker_version ver :
  is_byte ver ->
  Z.lor (Z.shiftl WH_COMM_ENDIAN 8) ver = WH_COMM_ENDIAN * 2 ^ 8 + ver /\
  Z.lor WH_COMM_ENDIAN (Z.shiftl ver 8) = WH_COMM_ENDIAN + ver * 2 ^ 8.
Proof.
  unfold is_byte. intros Hv. rewrite !Z.shiftl_mul_pow2 by lia. split.
  - rewrite Z.lor_comm, lor_shifted by lia. lia.
  - apply lor_shifted; [lia|]. unfold WH_COMM_ENDIAN. lia.
Qed.

(** X8: for every BCD version byte, the magic built like
    [WH_COMM_MAGIC_NATIVE] (marker in the high byte, version in the low
    byte) passes the swap test, its byte swap is the magic built like
    [WH_COMM_MAGIC_SWAP], and that one fails the swap test. *)
Theorem bcd_version_magic_swaptest (ver : Z) :
  is_bcd ver ->
  WH_COMM_FLAGS_SWAPTEST (Z.lor (Z.shiftl WH_COMM_ENDIAN 8) ver) = true /\
  wh_Translate16 WH_COMM_MAGIC_SWAP (Z.lor (Z.shiftl WH_COMM_ENDIAN 8) ver)
  = Z.lor WH_COMM_ENDIAN (Z.shiftl ver 8) /\
  WH_COMM_FLAGS_SWAPTEST (Z.lor WH_COMM_ENDIAN (Z.shiftl ver 8)) = false.
Proof.
  intros (Hb & Hhi & Hlo).
  destruct (lor_marker_version ver Hb) as [En Es]. rewrite En, Es.
  unfold is_byte, WH_COMM_ENDIAN in *. change (2 ^ 8) with 256.
  assert (Hn : is_uint 16 (165 * 256 + ver)) by (unfold is_uint; lia).
  assert (Hs : is_uint 16 (165 + ver * 256)) by (unfold is_uint; lia).
  repeat split.
  - rewrite (SWAPTEST_high_byte _ Hn), Z.shiftr_div_pow2 by lia.
    apply Z.eqb_eq. unfold WH_COMM_ENDIAN. change (2 ^ 8) with 256.
    Z.div_mod_to_equations. lia.
  - unfold wh_Translate16. rewrite SWAPTEST_SWAP.
    rewrite (swap16_byteReverse _ Hn).
    unfold byteReverse. cbn [to_le_bytes rev app of_le_bytes].
    Z.div_mod_to_equations. lia.
  - rewrite (SWAPTEST_high_byte _ Hs), Z.shiftr_div_pow2 by lia.
    apply Z.eqb_neq. unfold WH_COMM_ENDIAN. change (2 ^ 8) with 256.
    Z.div_mod_to_equations. lia.
Qed.

Lemma bcd_version_magic_swaptest_witness :
  WH_COMM_FLAGS_SWAPTEST (Z.lor (Z.shiftl WH_COMM_ENDIAN 8) 0x99) = true /\
  wh_Translate16 WH_COMM_MAGIC_SWAP (Z.lor (Z.shiftl WH_COMM_ENDIAN 8) 0x99)
  = Z.lor WH_COMM_ENDIAN (Z.shiftl 0x99 8) /\
  WH_COMM_FLAGS_SWAPTEST (Z.lor WH_COMM_ENDIAN (Z.shiftl 0x99 8)) = false.
Proof.
  apply (bcd_version_magic_swaptest 0x99).
  unfold is_bcd, is_byte. repeat split; try lia; vm_compute; discriminate.
Defined.
